(** * SoftSell landing page (src/src/App.jsx): chatbot, contact form, theme

    A shallow embedding of the two React components of [App.jsx] and of the
    event loop that drives them, with the properties of their handlers.

    Strings.  A JavaScript string is a sequence of UTF-16 code units.  The
    embedding takes [string], whose characters are the code units 0..255
    (the Latin-1 range), and defines [toLowerCase], [includes] and [trim]
    as ECMAScript does on that range.

    State.  Every [useState] cell is a field of a record; a handler is a
    function from the state to the new state and the effects it asks the
    runtime for ([setTimeout], [console.log], [preventDefault]).  The
    runtime is the record [Page.World]: both components, a clock in
    milliseconds and the queue of pending timeouts. *)

From Stdlib Require Import Ascii String NArith Bool Lia.
From stdpp Require Import gmap strings list fin_maps.

Local Open Scope N_scope.

(** ** JavaScript string primitives used by the page *)

Module JsString.

Definition codeUnit (c : ascii) : N := N_of_ascii c.

(** Code units with a lower-case mapping: A-Z, and U+00C0..U+00DE
    without the multiplication sign U+00D7. *)
Definition isUpper (c : ascii) : bool :=
  let n := codeUnit c in
  ((65 <=? n) && (n <=? 90)) ||
  ((192 <=? n) && (n <=? 222) && negb (n =? 215)).

Definition lowerUnit (c : ascii) : ascii :=
  if isUpper c then ascii_of_N (codeUnit c + 32) else c.

(** [String.prototype.toLowerCase] *)
Fixpoint toLowerCase (s : string) : string :=
  match s with
  | EmptyString => EmptyString
  | String c s' => String (lowerUnit c) (toLowerCase s')
  end.

(** [String.prototype.startsWith] *)
Fixpoint startsWith (s kw : string) {struct kw} : bool :=
  match kw with
  | EmptyString => true
  | String k kw' =>
      match s with
      | EmptyString => false
      | String c s' => if Ascii.eqb c k then startsWith s' kw' else false
      end
  end.

(** [String.prototype.includes]: the search string occurs at some
    position of [s]. *)
Fixpoint includes (s kw : string) : bool :=
  startsWith s kw ||
  match s with
  | EmptyString => false
  | String _ s' => includes s' kw
  end.

(** WhiteSpace and LineTerminator code units: TAB, LF, VT, FF, CR, SP
    and NBSP. *)
Definition isWhiteSpace (c : ascii) : bool :=
  let n := codeUnit c in
  ((9 <=? n) && (n <=? 13)) || (n =? 32) || (n =? 160).

Definition isEmpty (s : string) : bool :=
  match s with EmptyString => true | String _ _ => false end.

Fixpoint trimStart (s : string) : string :=
  match s with
  | EmptyString => EmptyString
  | String c s' => if isWhiteSpace c then trimStart s' else s
  end.

Fixpoint trimEnd (s : string) : string :=
  match s with
  | EmptyString => EmptyString
  | String c s' =>
      let r := trimEnd s' in
      if isWhiteSpace c && isEmpty r then EmptyString else String c r
  end.

(** [String.prototype.trim] *)
Definition trim (s : string) : string := trimEnd (trimStart s).

(** ToBoolean on a string: only the empty string is falsy. *)
Definition truthy (s : string) : bool := negb (isEmpty s).

(** Every code unit of [s] is white space (the empty string included). *)
Fixpoint isBlank (s : string) : bool :=
  match s with
  | EmptyString => true
  | String c s' => isWhiteSpace c && isBlank s'
  end.

(** [c] is the letter [k] in either case; [k] is a lower-case letter. *)
Definition sameLetter (k c : ascii) : Prop := c = k \/ lowerUnit c = k.

(** [mid] spells the lower-case word [kw], letter by letter, in any
    mix of cases. *)
Inductive caseVariant : string -> string -> Prop :=
| cv_nil : caseVariant EmptyString EmptyString
| cv_cons k c kw mid :
    sameLetter k c -> caseVariant kw mid ->
    caseVariant (String k kw) (String c mid).

(** The utterance [u] contains the word [kw] case-insensitively, at any
    position. *)
Definition containsIgnoringCase (u kw : string) : Prop :=
  exists pre mid post, u = pre +:+ mid +:+ post /\ caseVariant kw mid.

End JsString.

(** ** Effects a handler asks the runtime for *)

(** The two closures the page passes to [setTimeout]. *)
Inductive Callback :=
| BotReply (input : string)   (* App.jsx 48-58, closed over [input] *)
| HideToast.                  (* App.jsx 179-182 *)

Inductive Effect :=
| PreventDefault
| ConsoleLog (msg : string)
| SetTimeout (cb : Callback) (delay : N).

(** ** The Chatbot component (App.jsx 31-123) *)

Module Chatbot.
Import JsString.

Inductive Sender := user | bot.

Record Message := { text : string; sender : Sender }.

Record State := {
  isOpen : bool;
  messages : list Message;
  input : string
}.

Definition greeting : Message :=
  {| text := "Hi! I'm here to help you sell your software licenses. What's your question?";
     sender := bot |}.

(** The three [useState] initial values. *)
Definition init : State :=
  {| isOpen := false; messages := [greeting]; input := "" |}.

Definition replyDefault : string :=
  "Can you clarify your question? I'm here to help!".
Definition replyHow : string :=
  "Selling is easy! Upload your license details, get a fair valuation, and receive payment within 48 hours.".
Definition replyPrice : string :=
  "Valuations depend on the license type and market demand. Slug your license for a free quote!".
Definition replySafe : string :=
  "All transactions are encrypted and follow strict privacy protocols.".

(** The four canned replies. *)
Definition cannedReplies : list string :=
  [replyHow; replyPrice; replySafe; replyDefault].

(** The value of [response] when the deferred callback reaches its
    [setMessages] (lines 49-56). *)
Definition response (input : string) : string :=
  let response := replyDefault in
  if includes (toLowerCase input) "how" then replyHow
  else if includes (toLowerCase input) "price" || includes (toLowerCase input) "cost"
  then replyPrice
  else if includes (toLowerCase input) "safe" || includes (toLowerCase input) "secure"
  then replySafe
  else response.

(** The updater [(prev) => [...prev, turn]] of both [setMessages] calls. *)
Definition appendTurn (turn : Message) (st : State) : State :=
  {| isOpen := isOpen st; messages := messages st ++ [turn]; input := input st |}.

Definition setInput (value : string) (st : State) : State :=
  {| isOpen := isOpen st; messages := messages st; input := value |}.

Definition setIsOpen (b : bool) (st : State) : State :=
  {| isOpen := b; messages := messages st; input := input st |}.

(** The delay of the reply, in milliseconds (line 58). *)
Definition replyDelay : N := 600.

(** [handleSend] (lines 41-61). *)
Definition handleSend (st : State) : State * list Effect :=
  if negb (truthy (trim (input st))) then (st, [])
  else
    (setInput "" (appendTurn {| text := input st; sender := user |} st),
     [SetTimeout (BotReply (input st)) replyDelay]).

(** The deferred callback of [handleSend], run with the [input] it
    closed over (lines 48-58). *)
Definition botReply (input : string) (st : State) : State :=
  appendTurn {| text := response input; sender := bot |} st.

(** The form's [onSubmit] (lines 106-109). *)
Definition onSubmit (st : State) : State * list Effect :=
  let (st', effects) := handleSend st in (st', PreventDefault :: effects).

(** The text field's [onChange] (line 114). *)
Definition onChange (value : string) (st : State) : State := setInput value st.

(** The floating button's [onClick] (line 69). *)
Definition onClick (st : State) : State := setIsOpen (negb (isOpen st)) st.

(** ReplyRule of the specification: a set of keywords and the reply they
    select. *)
Record ReplyRule := { keywords : list string; reply : string }.

(** The ordered rule table as the specification lists it. *)
Definition rules : list ReplyRule :=
  [ {| keywords := ["how"]; reply := replyHow |};
    {| keywords := ["price"; "cost"]; reply := replyPrice |};
    {| keywords := ["safe"; "secure"]; reply := replySafe |} ].

Definition ruleMatches (utterance : string) (r : ReplyRule) : bool :=
  existsb (fun kw => includes (toLowerCase utterance) kw) (keywords r).

(** The response selector in the specification's words, to be compared
    with [response]: the first rule with a keyword contained in the
    lower-cased utterance wins, and the generic reply is the fall-back. *)
Definition selectReply (utterance : string) : string :=
  match List.find (ruleMatches utterance) rules with
  | Some r => reply r
  | None => replyDefault
  end.

End Chatbot.

(** ** The App component (App.jsx 129-492) *)

Module App.

Record State := {
  theme : string;
  showToast : bool;
  formData : gmap string string
}.

(** The object literal of lines 136-142 and of line 177. *)
Definition emptyForm : gmap string string :=
  <["name" := ""]> (<["email" := ""]> (<["company" := ""]>
    (<["licenseType" := ""]> (<["message" := ""]> ∅)))).

Definition init : State :=
  {| theme := "light"; showToast := false; formData := emptyForm |}.

Definition setTheme (t : string) (st : State) : State :=
  {| theme := t; showToast := showToast st; formData := formData st |}.

Definition setShowToast (b : bool) (st : State) : State :=
  {| theme := theme st; showToast := b; formData := formData st |}.

Definition setFormData (d : gmap string string) (st : State) : State :=
  {| theme := theme st; showToast := showToast st; formData := d |}.

(** [toggleTheme] (lines 167-169). *)
Definition toggleTheme (st : State) : State :=
  setTheme (if String.eqb (theme st) "light" then "dark" else "light") st.

(** The delay after which the toast is hidden, in milliseconds (line 182). *)
Definition toastDelay : N := 3000.

(** [handleSubmit] (lines 172-183). *)
Definition handleSubmit (st : State) : State * list Effect :=
  (setFormData emptyForm (setShowToast true st),
   [PreventDefault;
    ConsoleLog "Form submitted, showing success toast";
    SetTimeout HideToast toastDelay]).

(** The deferred callback of [handleSubmit] (lines 179-182). *)
Definition hideToast (st : State) : State * list Effect :=
  (setShowToast false st, [ConsoleLog "Hiding success toast"]).

(** [handleInputChange] (lines 186-189): the spread keeps every field and
    the computed key [name] is set or added. *)
Definition handleInputChange (name value : string) (st : State) : State :=
  setFormData (<[name := value]> (formData st)) st.

(** The toast's [onClose] (line 460). *)
Definition onClose (st : State) : State := setShowToast false st.

(** The value a controlled field shows: [formData.name] and the like. *)
Definition field (name : string) (st : State) : option string :=
  formData st !! name.

(** The names of the five controls of the contact form. *)
Definition fieldNames : list string :=
  ["name"; "email"; "company"; "licenseType"; "message"].

End App.

(** ** The page: both components, the clock and the timer queue *)

Module Page.

(** A pending [setTimeout]: the identifier the call returned, the time it
    is due and its closure. *)
Record Timer := { id : N; due : N; callback : Callback }.

Record World := {
  app : App.State;
  chat : Chatbot.State;
  now : N;
  nextId : N;
  timers : list Timer;
  console : list string
}.

Definition init : World :=
  {| app := App.init; chat := Chatbot.init; now := 0; nextId := 1;
     timers := []; console := [] |}.

Definition setApp (a : App.State) (w : World) : World :=
  {| app := a; chat := chat w; now := now w; nextId := nextId w;
     timers := timers w; console := console w |}.

Definition setChat (c : Chatbot.State) (w : World) : World :=
  {| app := app w; chat := c; now := now w; nextId := nextId w;
     timers := timers w; console := console w |}.

Definition setNow (t : N) (w : World) : World :=
  {| app := app w; chat := chat w; now := t; nextId := nextId w;
     timers := timers w; console := console w |}.

Definition setTimers (q : list Timer) (w : World) : World :=
  {| app := app w; chat := chat w; now := now w; nextId := nextId w;
     timers := q; console := console w |}.

Definition setNextId (n : N) (w : World) : World :=
  {| app := app w; chat := chat w; now := now w; nextId := n;
     timers := timers w; console := console w |}.

Definition setConsole (l : list string) (w : World) : World :=
  {| app := app w; chat := chat w; now := now w; nextId := nextId w;
     timers := timers w; console := l |}.

(** The queue is kept in firing order: by due time, and among timers due
    at the same time the one registered first comes first. *)
Fixpoint schedule (t : Timer) (q : list Timer) : list Timer :=
  match q with
  | [] => [t]
  | x :: q' => if due x <=? due t then x :: schedule t q' else t :: q
  end.

Definition perform (w : World) (e : Effect) : World :=
  match e with
  | PreventDefault => w
  | ConsoleLog msg => setConsole (console w ++ [msg]) w
  | SetTimeout cb delay =>
      setNextId (nextId w + 1)
        (setTimers
           (schedule {| id := nextId w; due := now w + delay; callback := cb |} (timers w))
           w)
  end.

Definition performAll (effects : list Effect) (w : World) : World :=
  fold_left perform effects w.

(** Running a component handler and then its effects. *)
Definition inApp (h : App.State -> App.State * list Effect) (w : World) : World :=
  let (a, effects) := h (app w) in performAll effects (setApp a w).

Definition inChat (h : Chatbot.State -> Chatbot.State * list Effect) (w : World) : World :=
  let (c, effects) := h (chat w) in performAll effects (setChat c w).

Definition runCallback (w : World) (cb : Callback) : World :=
  match cb with
  | BotReply input => setChat (Chatbot.botReply input (chat w)) w
  | HideToast => inApp App.hideToast w
  end.

Definition isDue (t : N) (x : Timer) : bool := due x <=? t.

(** The closures of the timers due by time [t], in firing order. *)
Definition firedBy (t : N) (q : list Timer) : list Callback :=
  List.map callback (List.filter (isDue t) q).

(** The timers not yet due at time [t]. *)
Definition pendingAfter (t : N) (q : list Timer) : list Timer :=
  List.filter (fun x => negb (isDue t x)) q.

(** [d] milliseconds pass: the timers due by then leave the queue and
    their closures run, in queue order. *)
Definition elapse (d : N) (w : World) : World :=
  let t := now w + d in
  fold_left runCallback (firedBy t (timers w))
    (setNow t (setTimers (pendingAfter t (timers w)) w)).

(** What can happen to the page. *)
Inductive Event :=
| ChatClick                          (* the floating button *)
| ChatChange (value : string)        (* typing in the chat field *)
| ChatSubmit                         (* submitting the chat form *)
| ThemeClick                         (* the theme button *)
| FormChange (name value : string)   (* editing a contact-form control *)
| FormSubmit                         (* submitting the contact form *)
| ToastClose                         (* the toast closes itself or is closed *)
| Elapse (d : N).                    (* time passes *)

Definition step (w : World) (e : Event) : World :=
  match e with
  | ChatClick => setChat (Chatbot.onClick (chat w)) w
  | ChatChange value => setChat (Chatbot.onChange value (chat w)) w
  | ChatSubmit => inChat Chatbot.onSubmit w
  | ThemeClick => setApp (App.toggleTheme (app w)) w
  | FormChange name value => setApp (App.handleInputChange name value (app w)) w
  | FormSubmit => inApp App.handleSubmit w
  | ToastClose => setApp (App.onClose (app w)) w
  | Elapse d => elapse d w
  end.

Definition run (es : list Event) (w : World) : World := fold_left step es w.

(** The worlds the page can be in. *)
Definition reachable (w : World) : Prop := exists es, w = run es init.

(** The timers an event fires, in firing order. *)
Definition firedAt (w : World) (e : Event) : list Timer :=
  match e with
  | Elapse d => List.filter (isDue (now w + d)) (timers w)
  | _ => []
  end.

(** The timers fired while the events [es] happen from the world [w]. *)
Fixpoint firings (es : list Event) (w : World) : list Timer :=
  match es with
  | [] => []
  | e :: es' => firedAt w e ++ firings es' (step w e)
  end.

Definition hasId (i : N) (x : Timer) : bool := id x =? i.

(** Every pending timer has an identifier handed out earlier. *)
Definition idsBelow (w : World) : Prop :=
  Forall (fun x => id x < nextId w) (timers w).

Definition isReply (x : Timer) : bool :=
  match callback x with BotReply _ => true | HideToast => false end.

Definition isUserTurn (m : Chatbot.Message) : bool :=
  match Chatbot.sender m with Chatbot.user => true | Chatbot.bot => false end.

Definition isBotTurn (m : Chatbot.Message) : bool :=
  match Chatbot.sender m with Chatbot.user => false | Chatbot.bot => true end.

(** The number of turns of the history, by sender. *)
Definition userTurns (w : World) : nat :=
  length (List.filter isUserTurn (Chatbot.messages (chat w))).

Definition botTurns (w : World) : nat :=
  length (List.filter isBotTurn (Chatbot.messages (chat w))).

(** The bot turns a list of closures adds to the history. *)
Definition replyTurns (cbs : list Callback) : list Chatbot.Message :=
  flat_map (fun cb =>
    match cb with
    | BotReply input => [ {| Chatbot.text := Chatbot.response input; Chatbot.sender := Chatbot.bot |} ]
    | HideToast => []
    end) cbs.

(** The queue is in firing order. *)
Fixpoint sortedByDue (q : list Timer) : Prop :=
  match q with
  | [] => True
  | x :: q' => Forall (fun y => due x <= due y) q' /\ sortedByDue q'
  end.

(** The delay a closure is registered with. *)
Definition delayOf (cb : Callback) : N :=
  match cb with
  | BotReply _ => Chatbot.replyDelay
  | HideToast => App.toastDelay
  end.

(** The utterances whose reply is still to come, in queue order. *)
Definition pendingInputs (q : list Timer) : list string :=
  flat_map (fun x =>
    match callback x with BotReply input => [input] | HideToast => [] end) q.

(** Every pending timer is due in the future, and no later than its
    delay from now; the queue is in firing order. *)
Definition wellTimed (w : World) : Prop :=
  sortedByDue (timers w) /\
  Forall (fun x => now w < due x /\ due x <= now w + delayOf (callback x)) (timers w).

(** The texts of the user's turns, and of the bot's, in history order. *)
Definition questions (w : World) : list string :=
  List.map Chatbot.text (List.filter isUserTurn (Chatbot.messages (chat w))).

Definition answers (w : World) : list string :=
  List.map Chatbot.text (List.filter isBotTurn (Chatbot.messages (chat w))).

(** The events only name controls the contact form has. *)
Definition knownFields (es : list Event) : Prop :=
  Forall (fun e =>
    match e with FormChange name _ => In name App.fieldNames | _ => True end) es.

Definition isChatClick (e : Event) : bool :=
  match e with ChatClick => true | _ => false end.

Definition isThemeClick (e : Event) : bool :=
  match e with ThemeClick => true | _ => false end.

(** How many of the events [es] are of the kind [k]. *)
Definition count (k : Event -> bool) (es : list Event) : nat :=
  length (List.filter k es).

End Page.

(** * Properties *)

(** ** Strings *)

Section StringFacts.
Import JsString.

Lemma lowerUnit_idem (c : ascii) : lowerUnit (lowerUnit c) = lowerUnit c.
Proof. destruct c as [[] [] [] [] [] [] [] []]; vm_compute; reflexivity. Qed.

Lemma toLowerCase_app (a b : string) :
  toLowerCase (a +:+ b) = toLowerCase a +:+ toLowerCase b.
Proof. induction a as [|c a IH]; simpl; [reflexivity | now rewrite IH]. Qed.

Lemma startsWith_spec (s kw : string) :
  startsWith s kw = true <-> exists post, s = kw +:+ post.
Proof.
  revert s; induction kw as [|k kw IH]; intros s; simpl.
  - split; [intros _; now exists s | reflexivity].
  - destruct s as [|c s]; [split; [discriminate | intros [post H]; discriminate] |].
    destruct (Ascii.eqb_spec c k) as [->|Hne].
    + rewrite IH. split; intros [post H]; exists post; [now rewrite H | now injection H].
    + split; [discriminate | intros [post H]; injection H; intros _ ?; contradiction].
Qed.

Lemma includes_spec (s kw : string) :
  includes s kw = true <-> exists pre post, s = pre +:+ kw +:+ post.
Proof.
  induction s as [|c s IH]; simpl.
  - rewrite orb_false_r, startsWith_spec. split.
    + intros [post H]. now exists EmptyString, post.
    + intros [[|c pre] [post H]]; [now exists post | discriminate].
  - rewrite orb_true_iff, startsWith_spec, IH. split.
    + intros [[post H] | [pre [post H]]].
      * now exists EmptyString, post.
      * exists (String c pre), post. simpl. now rewrite H.
    + intros [[|c' pre] [post H]].
      * left. now exists post.
      * right. simpl in H. injection H; intros H' _. now exists pre, post.
Qed.

Lemma caseVariant_lower (kw mid : string) :
  toLowerCase kw = kw -> caseVariant kw mid -> toLowerCase mid = kw.
Proof.
  intros Hkw Hcv; induction Hcv as [|k c kw mid [->|Hl] _ IH]; simpl in *;
    [reflexivity | |]; injection Hkw; intros Hkw' Hk; rewrite (IH Hkw').
  - now rewrite Hk.
  - now rewrite Hl.
Qed.

Lemma includes_lower_of_containsIgnoringCase (u kw : string) :
  toLowerCase kw = kw -> containsIgnoringCase u kw ->
  includes (toLowerCase u) kw = true.
Proof.
  intros Hkw (pre & mid & post & -> & Hcv).
  apply includes_spec. exists (toLowerCase pre), (toLowerCase post).
  now rewrite !toLowerCase_app, (caseVariant_lower _ _ Hkw Hcv).
Qed.

Lemma isEmpty_true (s : string) : isEmpty s = true <-> s = EmptyString.
Proof. destruct s; simpl; split; congruence. Qed.

Lemma trimStart_blank (s : string) :
  isBlank s = true <-> trimStart s = EmptyString.
Proof.
  induction s as [|c s IH]; simpl; [tauto |].
  destruct (isWhiteSpace c); simpl; [exact IH | split; discriminate].
Qed.

Lemma trimEnd_empty (s : string) :
  trimEnd s = EmptyString <-> isBlank s = true.
Proof.
  induction s as [|c s IH]; simpl; [tauto |].
  destruct (isWhiteSpace c); simpl.
  - destruct (trimEnd s) eqn:E; simpl.
    + split; [intros _; now apply IH | reflexivity].
    + split; [discriminate | intros H; apply IH in H; discriminate].
  - split; discriminate.
Qed.

Lemma trimStart_not_blank (s : string) :
  isBlank s = false -> isBlank (trimStart s) = false.
Proof.
  induction s as [|c s IH]; simpl; [discriminate |].
  destruct (isWhiteSpace c) eqn:E; simpl; [exact IH | now rewrite E].
Qed.

Lemma trim_blank (s : string) : isBlank s = true <-> trim s = EmptyString.
Proof.
  unfold trim. rewrite trimEnd_empty. split.
  - intros H. apply trimStart_blank in H. now rewrite H.
  - intros H. destruct (isBlank s) eqn:E; [reflexivity |].
    apply trimStart_not_blank in E. congruence.
Qed.

Lemma truthy_trim (s : string) : truthy (trim s) = negb (isBlank s).
Proof.
  unfold truthy. f_equal. destruct (isBlank s) eqn:E.
  - apply trim_blank in E. now rewrite E.
  - destruct (isEmpty (trim s)) eqn:E'; [| reflexivity].
    apply isEmpty_true, trim_blank in E'. congruence.
Qed.

End StringFacts.

(** ** The response selector *)

Section ResponseFacts.
Import JsString Chatbot.

(** C1. The reply the code computes is, for every utterance, the reply of
    the ordered rule table of the specification: the first rule one of
    whose keywords is contained in the lower-cased utterance wins ("how",
    then "price" or "cost", then "safe" or "secure"), and without a match
    the generic clarification request is returned. *)
Theorem response_first_match (utterance : string) :
  response utterance = selectReply utterance /\
  response utterance =
    (if includes (toLowerCase utterance) "how" then replyHow
     else if includes (toLowerCase utterance) "price"
             || includes (toLowerCase utterance) "cost" then replyPrice
     else if includes (toLowerCase utterance) "safe"
             || includes (toLowerCase utterance) "secure" then replySafe
     else replyDefault).
Proof.
  split; [| reflexivity].
  unfold response, selectReply, rules, ruleMatches; cbn [List.find existsb keywords reply].
  destruct (includes (toLowerCase utterance) "how"); [reflexivity |].
  destruct (includes (toLowerCase utterance) "price"); [reflexivity |].
  destruct (includes (toLowerCase utterance) "cost"); [reflexivity |].
  destruct (includes (toLowerCase utterance) "safe"); [reflexivity |].
  destruct (includes (toLowerCase utterance) "secure"); reflexivity.
Qed.

(** C2. For every string, the empty and the blank ones included, the
    selector returns one of the four canned replies, which are four
    different strings. *)
Theorem response_total (utterance : string) :
  In (response utterance) cannedReplies /\ List.NoDup cannedReplies.
Proof.
  split.
  - unfold response, cannedReplies; simpl.
    destruct (includes (toLowerCase utterance) "how"); [tauto |].
    destruct (includes (toLowerCase utterance) "price" || _); [tauto |].
    destruct (includes (toLowerCase utterance) "safe" || _); tauto.
  - unfold cannedReplies.
    repeat (apply List.NoDup_cons; [simpl; intuition discriminate |]).
    apply List.NoDup_nil.
Qed.

(** C3. An utterance that contains "how" in any mix of cases, at any
    position, gets the process-explanation reply; no rule comes before
    this one, so nothing else is asked of the utterance. *)
Theorem response_how (utterance : string) :
  containsIgnoringCase utterance "how" -> response utterance = replyHow.
Proof.
  intros H. unfold response.
  now rewrite (includes_lower_of_containsIgnoringCase _ "how" eq_refl H).
Qed.

Lemma response_how_witness :
  containsIgnoringCase "So HoW does it work?" "how" /\
  response "So HoW does it work?" = replyHow.
Proof.
  assert (H : containsIgnoringCase "So HoW does it work?" "how").
  { exists "So ", "HoW", " does it work?". split; [reflexivity |].
    repeat constructor; right; reflexivity. }
  split; [exact H | exact (response_how _ H)].
Defined.

(** C4. The three test utterances: a price question, a safety question
    written with a capital letter, and a word no rule knows. *)
Theorem response_test_vectors :
  response "What's the price?" = replyPrice /\
  response "Is this Safe?" = replySafe /\
  response "asdf" = replyDefault.
Proof. repeat split; vm_compute; reflexivity. Qed.

End ResponseFacts.

(** ** The event loop *)

Section PageFacts.
Import JsString Chatbot App Page.

Lemma setChat_id (w : World) : setChat (chat w) w = w.
Proof. now destruct w. Qed.

Lemma perform_frame (w : World) (e : Effect) :
  chat (perform w e) = chat w /\ app (perform w e) = app w /\ now (perform w e) = now w.
Proof. now destruct e. Qed.

Lemma performAll_frame (effects : list Effect) (w : World) :
  chat (performAll effects w) = chat w /\
  app (performAll effects w) = app w /\
  now (performAll effects w) = now w.
Proof.
  unfold performAll. revert w; induction effects as [|e effects IH]; intros w; simpl; [tauto |].
  destruct (IH (perform w e)) as (-> & -> & ->). apply perform_frame.
Qed.

Lemma runCallback_frame (w : World) (cb : Callback) :
  timers (runCallback w cb) = timers w /\
  now (runCallback w cb) = now w /\
  theme (app (runCallback w cb)) = theme (app w) /\
  formData (app (runCallback w cb)) = formData (app w) /\
  isOpen (chat (runCallback w cb)) = isOpen (chat w) /\
  input (chat (runCallback w cb)) = input (chat w) /\
  messages (chat (runCallback w cb)) = messages (chat w) ++ replyTurns [cb].
Proof. destruct cb; simpl; rewrite ?app_nil_r; tauto. Qed.

Lemma runCallbacks_frame (cbs : list Callback) (w : World) :
  timers (fold_left runCallback cbs w) = timers w /\
  now (fold_left runCallback cbs w) = now w /\
  theme (app (fold_left runCallback cbs w)) = theme (app w) /\
  formData (app (fold_left runCallback cbs w)) = formData (app w) /\
  isOpen (chat (fold_left runCallback cbs w)) = isOpen (chat w) /\
  input (chat (fold_left runCallback cbs w)) = input (chat w) /\
  messages (chat (fold_left runCallback cbs w)) = messages (chat w) ++ replyTurns cbs.
Proof.
  revert w; induction cbs as [|cb cbs IH]; intros w.
  - simpl. rewrite app_nil_r. tauto.
  - cbn [fold_left].
    destruct (IH (runCallback w cb)) as (-> & -> & -> & -> & -> & -> & ->).
    destruct (runCallback_frame w cb) as (-> & -> & -> & -> & -> & -> & ->).
    assert (Hc : replyTurns (cb :: cbs) = replyTurns [cb] ++ replyTurns cbs).
    { unfold replyTurns; simpl. now rewrite app_nil_r. }
    rewrite Hc, <- app_assoc. tauto.
Qed.

Lemma elapse_messages (d : N) (w : World) :
  messages (chat (elapse d w)) =
  messages (chat w) ++ replyTurns (firedBy (now w + d) (timers w)).
Proof.
  unfold elapse; cbv zeta.
  now destruct (runCallbacks_frame (firedBy (now w + d) (timers w))
    (setNow (now w + d) (setTimers (pendingAfter (now w + d) (timers w)) w)))
    as (_ & _ & _ & _ & _ & _ & ->).
Qed.

Lemma elapse_timers (d : N) (w : World) :
  timers (elapse d w) = pendingAfter (now w + d) (timers w).
Proof.
  unfold elapse; cbv zeta.
  now destruct (runCallbacks_frame (firedBy (now w + d) (timers w))
    (setNow (now w + d) (setTimers (pendingAfter (now w + d) (timers w)) w)))
    as (-> & _).
Qed.

Lemma elapse_now (d : N) (w : World) : now (elapse d w) = now w + d.
Proof.
  unfold elapse; cbv zeta.
  now destruct (runCallbacks_frame (firedBy (now w + d) (timers w))
    (setNow (now w + d) (setTimers (pendingAfter (now w + d) (timers w)) w)))
    as (_ & -> & _).
Qed.

Lemma elapse_frame (d : N) (w : World) :
  theme (app (elapse d w)) = theme (app w) /\
  formData (app (elapse d w)) = formData (app w) /\
  isOpen (chat (elapse d w)) = isOpen (chat w) /\
  input (chat (elapse d w)) = input (chat w).
Proof.
  unfold elapse; cbv zeta.
  now destruct (runCallbacks_frame (firedBy (now w + d) (timers w))
    (setNow (now w + d) (setTimers (pendingAfter (now w + d) (timers w)) w)))
    as (_ & _ & -> & -> & -> & -> & _).
Qed.

Lemma handleSend_blank (st : Chatbot.State) :
  isBlank (input st) = true -> handleSend st = (st, []).
Proof. intros H. unfold handleSend. now rewrite truthy_trim, H. Qed.

Lemma handleSend_not_blank (st : Chatbot.State) :
  isBlank (input st) = false ->
  handleSend st =
    (setInput "" (appendTurn {| text := input st; sender := user |} st),
     [SetTimeout (BotReply (input st)) replyDelay]).
Proof. intros H. unfold handleSend. now rewrite truthy_trim, H. Qed.

Lemma step_messages (w : World) (e : Event) :
  exists new, messages (chat (step w e)) = messages (chat w) ++ new.
Proof.
  destruct e; simpl;
    try (exists []; rewrite app_nil_r; reflexivity).
  - unfold inChat, onSubmit.
    destruct (isBlank (input (chat w))) eqn:E.
    + rewrite (handleSend_blank _ E). exists []. now rewrite app_nil_r.
    + rewrite (handleSend_not_blank _ E). eexists. simpl. reflexivity.
  - eexists. apply elapse_messages.
Qed.

(** C5. Submitting an empty or blank input changes nothing: the world
    after the submission is the world before it (no turn recorded, the
    history as it was), and [handleSend] asks for no deferred callback, so
    the selector is never reached. *)
Theorem blank_submit_ignored (w : World) :
  isBlank (input (chat w)) = true ->
  step w ChatSubmit = w /\
  handleSend (chat w) = (chat w, []) /\
  messages (chat (step w ChatSubmit)) = messages (chat w).
Proof.
  intros H.
  assert (Hs : step w ChatSubmit = w).
  { simpl. unfold inChat, onSubmit. rewrite (handleSend_blank _ H). simpl.
    apply setChat_id. }
  rewrite Hs. auto using handleSend_blank.
Qed.

Lemma blank_submit_ignored_witness :
  let w := step Page.init (ChatChange "   ") in
  isBlank (input (chat w)) = true /\ step w ChatSubmit = w.
Proof.
  split; [reflexivity |].
  exact (proj1 (blank_submit_ignored (step Page.init (ChatChange "   ")) eq_refl)).
Defined.

(** C6. The reply depends on the utterance alone: run in any two worlds,
    whatever their history, field content, form or clock, the deferred
    callback appends the same turn, the bot's turn with the selector's
    reply to the utterance it closed over. *)
Theorem response_stateless (utterance : string) (w1 w2 : World) :
  let turn := {| text := response utterance; sender := bot |} in
  messages (chat (runCallback w1 (BotReply utterance))) = messages (chat w1) ++ [turn] /\
  messages (chat (runCallback w2 (BotReply utterance))) = messages (chat w2) ++ [turn].
Proof. split; reflexivity. Qed.

(** C7. The history only grows at its end: whatever events happen, the
    history before them is a prefix of the history after them, so no turn
    is ever edited, moved or removed; a recorded turn is one more element
    at the end. *)
Theorem history_append_only (w : World) (es : list Event) :
  messages (chat w) `prefix_of` messages (chat (run es w)) /\
  (forall turn st, messages (appendTurn turn st) = messages st ++ [turn]).
Proof.
  split; [| reflexivity].
  unfold run. revert w; induction es as [|e es IH]; intros w; simpl.
  - reflexivity.
  - destruct (step_messages w e) as [new Hnew].
    etransitivity; [| apply IH]. rewrite Hnew. now apply prefix_app_r.
Qed.

End PageFacts.

(** ** Reachable worlds, the theme and the contact form *)

Section AppFacts.
Import JsString Chatbot App Page.

Lemma run_snoc (es : list Event) (e : Event) (w : World) :
  run (es ++ [e]) w = step (run es w) e.
Proof. unfold run. now rewrite fold_left_app. Qed.

(** Induction over the worlds the page can reach. *)
Lemma reachable_invariant (P : World -> Prop) :
  P Page.init ->
  (forall w e, reachable w -> P w -> P (step w e)) ->
  forall w, reachable w -> P w.
Proof.
  intros Hinit Hstep w [es ->].
  induction es as [|e es IH] using rev_ind; [exact Hinit |].
  rewrite run_snoc. apply Hstep; [now exists es | exact IH].
Qed.

Lemma reachable_step (w : World) (e : Event) : reachable w -> reachable (step w e).
Proof. intros [es ->]. exists (es ++ [e]). now rewrite run_snoc. Qed.

Lemma step_theme (w : World) (e : Event) :
  theme (app (step w e)) =
  match e with ThemeClick => theme (toggleTheme (app w)) | _ => theme (app w) end.
Proof.
  destruct e; try reflexivity.
  - simpl. unfold inChat. destruct (onSubmit (chat w)) as [c effects].
    now destruct (performAll_frame effects (setChat c w)) as (_ & -> & _).
  - apply elapse_frame.
Qed.

Lemma theme_light_or_dark (w : World) :
  reachable w -> theme (app w) = "light" \/ theme (app w) = "dark".
Proof.
  revert w. apply reachable_invariant; [now left |].
  intros w e _ IH. rewrite step_theme. destruct e; try exact IH.
  simpl. destruct (String.eqb (theme (app w)) "light"); auto.
Qed.

(** C10. The theme starts as 'light' and, in every world the page can
    reach, is 'light' or 'dark'; the toggle sends 'light' to 'dark' and
    'dark' to 'light', and toggling twice gives back the state, and the
    world, one started from. *)
Theorem theme_toggle_involution (w : World) :
  reachable w ->
  theme App.init = "light" /\
  (theme (app w) = "light" \/ theme (app w) = "dark") /\
  theme (toggleTheme (setTheme "light" (app w))) = "dark" /\
  theme (toggleTheme (setTheme "dark" (app w))) = "light" /\
  toggleTheme (toggleTheme (app w)) = app w /\
  step (step w ThemeClick) ThemeClick = w.
Proof.
  intros Hw. pose proof (theme_light_or_dark w Hw) as Ht.
  assert (Htt : toggleTheme (toggleTheme (app w)) = app w).
  { destruct (app w) as [t s f]; simpl in *. unfold toggleTheme; simpl.
    destruct Ht as [-> | ->]; reflexivity. }
  repeat split; try reflexivity; try assumption.
  simpl. rewrite Htt. destruct w; reflexivity.
Qed.

Lemma theme_toggle_involution_witness :
  let w := run [ThemeClick; FormSubmit; ChatClick] Page.init in
  reachable w /\ toggleTheme (toggleTheme (app w)) = app w.
Proof.
  assert (H : reachable (run [ThemeClick; FormSubmit; ChatClick] Page.init)).
  { now exists [ThemeClick; FormSubmit; ChatClick]. }
  split; [exact H |].
  exact (proj1 (proj2 (proj2 (proj2 (proj2 (theme_toggle_involution _ H)))))).
Defined.

End AppFacts.

(** ** The timer queue *)

Section TimerFacts.
Import JsString Chatbot App Page.

Lemma schedule_In (t x : Timer) (q : list Timer) :
  In x (schedule t q) <-> x = t \/ In x q.
Proof.
  induction q as [|y q IH]; simpl; [intuition |].
  destruct (due y <=? due t); simpl; [rewrite IH |]; intuition.
Qed.

Lemma schedule_Permutation (t : Timer) (q : list Timer) :
  Permutation (t :: q) (schedule t q).
Proof.
  induction q as [|y q IH]; simpl; [reflexivity |].
  destruct (due y <=? due t); [| reflexivity].
  rewrite Permutation_swap. now constructor.
Qed.

Lemma schedule_length (t : Timer) (q : list Timer) :
  length (schedule t q) = S (length q).
Proof. now rewrite <- (Permutation_length (schedule_Permutation t q)). Qed.

Lemma runCallbacks_showToast (cbs : list Callback) (w : World) :
  showToast (app (fold_left runCallback cbs w)) =
  if existsb (fun cb => match cb with HideToast => true | _ => false end) cbs
  then false else showToast (app w).
Proof.
  revert w; induction cbs as [|cb cbs IH]; intros w; [reflexivity |].
  cbn [fold_left existsb]. rewrite IH. destruct cb; simpl; [reflexivity |].
  now destruct (existsb _ cbs).
Qed.

Lemma elapse_showToast (d : N) (w : World) :
  showToast (app (elapse d w)) =
  if existsb (fun cb => match cb with HideToast => true | _ => false end)
       (firedBy (now w + d) (timers w))
  then false else showToast (app w).
Proof. unfold elapse; cbv zeta. now rewrite runCallbacks_showToast. Qed.

Lemma firedBy_In (t : N) (x : Timer) (q : list Timer) :
  In x q -> due x <= t -> In (callback x) (firedBy t q).
Proof.
  intros Hin Hdue. unfold firedBy. apply in_map, filter_In. split; [exact Hin |].
  unfold isDue. now apply N.leb_le.
Qed.

(** C9. Submitting the contact form only touches the page itself: the
    five fields are back at the empty string (the form is the initial
    one), the toast is shown, one timeout is registered that hides it
    once the delay of 3000 ms has passed, and the theme, the chatbot
    and the clock are as before; the handler asks for nothing but
    [preventDefault], a console line and that timeout. *)
Theorem contact_submit_simulated (w : World) (d : N) :
  let w' := step w FormSubmit in
  formData (app w') = formData App.init /\
  Forall (fun name => field name (app w') = Some "") fieldNames /\
  showToast (app w') = true /\
  theme (app w') = theme (app w) /\
  chat w' = chat w /\
  now w' = now w /\
  timers w' =
    schedule {| id := nextId w; due := now w + toastDelay; callback := HideToast |} (timers w) /\
  snd (handleSubmit (app w)) =
    [PreventDefault; ConsoleLog "Form submitted, showing success toast";
     SetTimeout HideToast toastDelay] /\
  showToast (app (step w' (Elapse (toastDelay + d)))) = false.
Proof.
  cbv zeta. repeat split; try reflexivity.
  - unfold fieldNames. repeat constructor.
  - cbn [step]. rewrite elapse_showToast.
    set (tm := {| id := nextId w; due := now w + toastDelay; callback := HideToast |}).
    assert (Hin : In HideToast (firedBy (now (step w FormSubmit) + (toastDelay + d))
                                  (timers (step w FormSubmit)))).
    { apply (firedBy_In _ tm).
      - simpl. apply schedule_In. now left.
      - simpl. lia. }
    destruct (existsb _ _) eqn:E; [reflexivity |].
    exfalso. rewrite <- not_true_iff_false in E. apply E.
    apply existsb_exists. now exists HideToast.
Qed.

End TimerFacts.

(** ** The life of one timeout *)

Section TimerLife.
Import JsString Chatbot App Page.

Lemma filter_schedule_other (P : Timer -> bool) (t : Timer) (q : list Timer) :
  P t = false -> List.filter P (schedule t q) = List.filter P q.
Proof.
  intros Ht. induction q as [|y q IH]; simpl; [now rewrite Ht |].
  destruct (due y <=? due t); simpl; [now rewrite IH | now rewrite Ht].
Qed.

Lemma filter_schedule_fresh (P : Timer -> bool) (t : Timer) (q : list Timer) :
  P t = true -> List.filter P q = [] -> List.filter P (schedule t q) = [t].
Proof.
  intros Ht. induction q as [|y q IH]; simpl; [now rewrite Ht |].
  destruct (P y) eqn:Ey; [discriminate |]. intros Hq.
  destruct (due y <=? due t); simpl; [now rewrite Ey, IH | now rewrite Ht, Ey, Hq].
Qed.

Lemma filter_filter_comm {A} (P Q : A -> bool) (l : list A) :
  List.filter P (List.filter Q l) = List.filter Q (List.filter P l).
Proof.
  induction l as [|x l IH]; simpl; [reflexivity |].
  destruct (P x) eqn:Ep, (Q x) eqn:Eq; simpl; rewrite ?Ep, ?Eq, IH; reflexivity.
Qed.

Lemma runCallbacks_nextId (cbs : list Callback) (w : World) :
  nextId (fold_left runCallback cbs w) = nextId w.
Proof.
  revert w; induction cbs as [|cb cbs IH]; intros w; [reflexivity |].
  cbn [fold_left]. rewrite IH. now destruct cb.
Qed.

Lemma elapse_nextId (d : N) (w : World) : nextId (elapse d w) = nextId w.
Proof. unfold elapse; cbv zeta. now rewrite runCallbacks_nextId. Qed.

(** What an event other than the passing of time does to the queue: it
    fires nothing, keeps the clock, and leaves every timer whose
    identifier was handed out before in place. *)
Lemma step_user_queue (w : World) (e : Event) (i : N) :
  (forall d, e <> Elapse d) -> i < nextId w ->
  List.filter (hasId i) (timers (step w e)) = List.filter (hasId i) (timers w) /\
  now (step w e) = now w /\
  nextId w <= nextId (step w e) /\
  firedAt w e = [].
Proof.
  intros He Hi.
  assert (Hfresh : forall due cb, hasId i {| id := nextId w; due := due; callback := cb |} = false).
  { intros. unfold hasId; simpl. apply N.eqb_neq. lia. }
  destruct e; try (simpl; repeat split; (reflexivity || lia)).
  - cbn [step firedAt]. unfold inChat, onSubmit.
    destruct (isBlank (input (chat w))) eqn:E.
    + rewrite (handleSend_blank _ E). simpl. repeat split; (reflexivity || lia).
    + rewrite (handleSend_not_blank _ E). simpl.
      rewrite filter_schedule_other by apply Hfresh.
      repeat split; (reflexivity || lia).
  - simpl. rewrite filter_schedule_other by apply Hfresh.
    repeat split; (reflexivity || lia).
  - now destruct (He d).
Qed.

Lemma step_now_mono (w : World) (e : Event) : now w <= now (step w e).
Proof.
  destruct e; try (simpl; lia).
  - simpl. unfold inChat. destruct (onSubmit (chat w)) as [c effects].
    destruct (performAll_frame effects (setChat c w)) as (_ & _ & ->). simpl. lia.
  - simpl. rewrite elapse_now. lia.
Qed.

Lemma run_now_mono (es : list Event) (w : World) : now w <= now (run es w).
Proof.
  unfold run. revert w; induction es as [|e es IH]; intros w; simpl; [lia |].
  etransitivity; [apply (step_now_mono w e) | apply IH].
Qed.

Lemma step_nextId_mono (w : World) (e : Event) : nextId w <= nextId (step w e).
Proof.
  destruct e; try (simpl; lia).
  - simpl. unfold inChat, onSubmit.
    destruct (isBlank (input (chat w))) eqn:E.
    + rewrite (handleSend_blank _ E). simpl. lia.
    + rewrite (handleSend_not_blank _ E). simpl. lia.
  - simpl. rewrite elapse_nextId. lia.
Qed.

(** Once the timer with identifier [i] has left the queue it never comes
    back and never fires again. *)
Lemma timer_gone (i : N) (es : list Event) (w : World) :
  i < nextId w ->
  List.filter (hasId i) (timers w) = [] ->
  List.filter (hasId i) (timers (run es w)) = [] /\
  List.filter (hasId i) (firings es w) = [].
Proof.
  unfold run. revert w; induction es as [|e es IH]; intros w Hi Hq; [now split |].
  cbn [fold_left firings]. rewrite List.filter_app.
  assert (Hi' : i < nextId (step w e)) by (pose proof (step_nextId_mono w e); lia).
  destruct e;
    try (match goal with |- context [step w ?ev] =>
           destruct (step_user_queue w ev i ltac:(congruence) Hi) as (Hf & _ & _ & ->) end;
         rewrite <- Hf in Hq; exact (IH _ Hi' Hq)).
  cbn [firedAt]. rewrite filter_filter_comm, Hq.
  apply IH; [exact Hi' |].
  cbn [step]. rewrite elapse_timers. unfold pendingAfter.
  now rewrite filter_filter_comm, Hq.
Qed.

(** A pending timer stays in the queue, once, until the clock reaches
    its due time; the event that takes the clock there fires it, once. *)
Lemma timer_life (tm : Timer) (es : list Event) (w : World) :
  id tm < nextId w ->
  List.filter (hasId (id tm)) (timers w) = [tm] ->
  now w < due tm ->
  (now (run es w) < due tm ->
     List.filter (hasId (id tm)) (timers (run es w)) = [tm] /\
     List.filter (hasId (id tm)) (firings es w) = []) /\
  (due tm <= now (run es w) ->
     List.filter (hasId (id tm)) (timers (run es w)) = [] /\
     List.filter (hasId (id tm)) (firings es w) = [tm]).
Proof.
  revert w; induction es as [|e es IH]; intros w Hi Hq Hnow.
  - simpl. split; [now intros _ | intros; lia].
  - change (run (e :: es) w) with (run es (step w e)).
    cbn [firings]. rewrite List.filter_app.
    assert (Hi' : id tm < nextId (step w e)) by (pose proof (step_nextId_mono w e); lia).
    destruct e;
      try (match goal with |- context [step w ?ev] =>
             destruct (step_user_queue w ev (id tm) ltac:(congruence) Hi) as (Hf & Hn & _ & ->) end;
           rewrite <- Hf in Hq; rewrite <- Hn in Hnow; exact (IH _ Hi' Hq Hnow)).
    cbn [firedAt]. rewrite filter_filter_comm, Hq.
    assert (Ht : List.filter (hasId (id tm)) (timers (step w (Elapse d))) =
                 List.filter (fun x => negb (isDue (now w + d) x)) [tm]).
    { cbn [step]. rewrite elapse_timers. unfold pendingAfter.
      now rewrite filter_filter_comm, Hq. }
    assert (Hn : now (step w (Elapse d)) = now w + d) by apply elapse_now.
    cbn [List.filter] in *. unfold isDue in *.
    destruct (N.leb_spec (due tm) (now w + d)) as [Hle | Hgt]; cbn [negb] in Ht.
    + destruct (timer_gone (id tm) es _ Hi' Ht) as [-> ->].
      pose proof (run_now_mono es (step w (Elapse d))).
      split; [intros; lia | now intros _].
    + apply IH; [exact Hi' | exact Ht | lia].
Qed.

Lemma idsBelow_reachable (w : World) : reachable w -> idsBelow w.
Proof.
  revert w. apply reachable_invariant; [constructor |].
  unfold idsBelow. intros w e _ IH.
  assert (Hgrow : forall cb delay,
    Forall (fun x => id x < nextId w + 1)
      (schedule {| id := nextId w; due := now w + delay; callback := cb |} (timers w))).
  { intros. apply List.Forall_forall. intros x Hx. apply schedule_In in Hx as [-> | Hx].
    - simpl. lia.
    - rewrite List.Forall_forall in IH. specialize (IH x Hx). lia. }
  destruct e; try exact IH.
  - simpl. unfold inChat, onSubmit.
    destruct (isBlank (input (chat w))) eqn:E.
    + rewrite (handleSend_blank _ E). exact IH.
    + rewrite (handleSend_not_blank _ E). simpl. apply Hgrow.
  - simpl. apply Hgrow.
  - cbn [step]. rewrite elapse_timers, elapse_nextId. unfold pendingAfter.
    rewrite List.Forall_forall in *. intros x Hx. apply filter_In in Hx. now apply IH.
Qed.

End TimerLife.

(** ** One submission, one reply *)

Section SubmissionFacts.
Import JsString Chatbot App Page.

Lemma filter_hasId_fresh (w : World) :
  idsBelow w -> List.filter (hasId (nextId w)) (timers w) = [].
Proof.
  unfold idsBelow. generalize (nextId w) as n. intros n Hids.
  induction Hids as [|x q Hx _ IH]; [reflexivity |].
  simpl. unfold hasId at 1.
  destruct (N.eqb_spec (id x) n); [lia | exact IH].
Qed.

(** C8. A submission whose input is not blank records the user's turn
    and registers exactly one timeout, due 600 ms later, whose closure
    holds the submitted utterance.  Whatever happens afterwards (typing,
    other submissions, time passing in any steps), that timeout is in the
    queue exactly once and has not fired while the clock is before its
    due time, and has left the queue and fired exactly once as soon as
    the clock has reached it: it is never cancelled and never runs twice.
    When it runs, in whatever world, it appends the bot's turn with the
    selector's reply to the submitted utterance. *)
Theorem chat_submit_one_reply (w : World) (es : list Event) :
  reachable w ->
  isBlank (input (chat w)) = false ->
  let u := input (chat w) in
  let tm := {| id := nextId w; due := now w + replyDelay; callback := BotReply u |} in
  let w1 := step w ChatSubmit in
  let w' := run es w1 in
  snd (handleSend (chat w)) = [SetTimeout (BotReply u) replyDelay] /\
  messages (chat w1) = messages (chat w) ++ [{| text := u; sender := user |}] /\
  timers w1 = schedule tm (timers w) /\
  (now w' < due tm ->
     List.filter (hasId (id tm)) (timers w') = [tm] /\
     List.filter (hasId (id tm)) (firings es w1) = []) /\
  (due tm <= now w' ->
     List.filter (hasId (id tm)) (timers w') = [] /\
     List.filter (hasId (id tm)) (firings es w1) = [tm]) /\
  (forall w2,
     messages (chat (runCallback w2 (callback tm))) =
     messages (chat w2) ++ [{| text := response u; sender := bot |}]).
Proof.
  intros Hreach Hblank. cbv zeta.
  set (tm := {| id := nextId w; due := now w + replyDelay; callback := BotReply (input (chat w)) |}).
  assert (Hstep : step w ChatSubmit =
    setNextId (nextId w + 1)
      (setTimers (schedule tm (timers w))
         (setChat (setInput "" (appendTurn {| text := input (chat w); sender := user |} (chat w))) w))).
  { simpl. unfold inChat, onSubmit. now rewrite (handleSend_not_blank _ Hblank). }
  split; [now rewrite (handleSend_not_blank _ Hblank) |].
  split; [now rewrite Hstep |].
  split; [now rewrite Hstep |].
  assert (Hq : List.filter (hasId (id tm)) (timers (step w ChatSubmit)) = [tm]).
  { rewrite Hstep. simpl. apply filter_schedule_fresh.
    - unfold hasId; simpl. apply N.eqb_refl.
    - apply filter_hasId_fresh, idsBelow_reachable, Hreach. }
  assert (Hi : id tm < nextId (step w ChatSubmit)) by (rewrite Hstep; simpl; lia).
  assert (Hn : now (step w ChatSubmit) < due tm).
  { rewrite Hstep. simpl. unfold replyDelay. lia. }
  destruct (timer_life tm es _ Hi Hq Hn) as [Hbefore Hafter].
  repeat split; try (apply Hbefore; assumption); try (apply Hafter; assumption).
Qed.

Lemma chat_submit_one_reply_witness :
  let w := step Page.init (ChatChange "How much?") in
  let es := [ChatChange "and is it safe"; Elapse 250; ThemeClick; Elapse 350] in
  reachable w /\ isBlank (input (chat w)) = false /\
  List.filter (hasId 1) (firings es (step w ChatSubmit)) =
    [{| id := 1; due := 600; callback := BotReply "How much?" |}].
Proof.
  assert (Hw : reachable (step Page.init (ChatChange "How much?"))).
  { now exists [ChatChange "How much?"]. }
  split; [exact Hw |]. split; [reflexivity |].
  refine (proj2 (proj1 (proj2 (proj2 (proj2 (proj2
    (chat_submit_one_reply (step Page.init (ChatChange "How much?"))
       [ChatChange "and is it safe"; Elapse 250; ThemeClick; Elapse 350]
       Hw eq_refl))))) _)).
  vm_compute. discriminate.
Defined.

End SubmissionFacts.

(** ** More on the response selector *)

Section ResponseMore.
Import JsString Chatbot.

Lemma toLowerCase_idem (s : string) : toLowerCase (toLowerCase s) = toLowerCase s.
Proof. induction s as [|c s IH]; simpl; [reflexivity | now rewrite lowerUnit_idem, IH]. Qed.

Lemma append_cons (c : ascii) (a b : string) :
  String c a +:+ b = String c (a +:+ b).
Proof. reflexivity. Qed.

Lemma append_assoc (a b c : string) : (a +:+ b) +:+ c = a +:+ b +:+ c.
Proof.
  induction a as [|x a IH]; [reflexivity |].
  now rewrite !append_cons, IH.
Qed.

Lemma includes_context (pre s post kw : string) :
  includes s kw = true -> includes (pre +:+ s +:+ post) kw = true.
Proof.
  rewrite !includes_spec. intros (a & b & ->).
  exists (pre +:+ a), (b +:+ post).
  now rewrite !append_assoc.
Qed.

Lemma includes_context_false (pre s post kw : string) :
  includes (pre +:+ s +:+ post) kw = false -> includes s kw = false.
Proof.
  intros H. destruct (includes s kw) eqn:E; [| reflexivity].
  now rewrite (includes_context pre s post kw E) in H.
Qed.

Lemma response_how_iff (u : string) :
  response u = replyHow <-> includes (toLowerCase u) "how" = true.
Proof.
  unfold response.
  destruct (includes (toLowerCase u) "how"); [tauto |].
  destruct (_ || _); [split; discriminate |].
  destruct (_ || _); split; discriminate.
Qed.

Lemma response_default_iff (u : string) :
  response u = replyDefault <->
  includes (toLowerCase u) "how" = false /\
  includes (toLowerCase u) "price" = false /\
  includes (toLowerCase u) "cost" = false /\
  includes (toLowerCase u) "safe" = false /\
  includes (toLowerCase u) "secure" = false.
Proof.
  unfold response.
  destruct (includes (toLowerCase u) "how"); [split; [discriminate | intuition discriminate] |].
  destruct (includes (toLowerCase u) "price"); [split; [discriminate | intuition discriminate] |].
  destruct (includes (toLowerCase u) "cost"); [split; [discriminate | intuition discriminate] |].
  destruct (includes (toLowerCase u) "safe"); [split; [discriminate | intuition discriminate] |].
  destruct (includes (toLowerCase u) "secure"); [split; [discriminate | intuition discriminate] |].
  simpl. tauto.
Qed.

(** X1. The reply does not see letter case: two utterances with the same
    lower-case form get the same reply, and so an utterance and its
    lower-case form do. *)
Theorem response_case_blind (u1 u2 : string) :
  toLowerCase u1 = toLowerCase u2 ->
  response u1 = response u2 /\ response (toLowerCase u1) = response u2.
Proof.
  intros H. unfold response. now rewrite toLowerCase_idem, H.
Qed.

Lemma response_case_blind_witness :
  toLowerCase "What does it COST" = toLowerCase "what does IT cost" /\
  response "What does it COST" = response "what does IT cost".
Proof.
  split; [reflexivity |].
  exact (proj1 (response_case_blind "What does it COST" "what does IT cost" eq_refl)).
Defined.

(** X2. Which utterances get which reply: the process reply exactly when
    "how" occurs; the valuation reply exactly when "how" does not occur
    and "price" or "cost" does; the security reply exactly when none of
    these occur and "safe" or "secure" does; the generic reply exactly
    when none of the five keywords occurs (all in the lower-cased
    utterance). *)
Theorem response_reply_conditions (u : string) :
  let has kw := includes (toLowerCase u) kw in
  (response u = replyHow <-> has "how" = true) /\
  (response u = replyPrice <->
     has "how" = false /\ (has "price" = true \/ has "cost" = true)) /\
  (response u = replySafe <->
     has "how" = false /\ has "price" = false /\ has "cost" = false /\
     (has "safe" = true \/ has "secure" = true)) /\
  (response u = replyDefault <->
     has "how" = false /\ has "price" = false /\ has "cost" = false /\
     has "safe" = false /\ has "secure" = false).
Proof.
  cbv zeta. split; [apply response_how_iff |].
  split; [| split; [| apply response_default_iff]]; unfold response;
    destruct (includes (toLowerCase u) "how");
    destruct (includes (toLowerCase u) "price");
    destruct (includes (toLowerCase u) "cost");
    destruct (includes (toLowerCase u) "safe");
    destruct (includes (toLowerCase u) "secure"); simpl;
    split; intros H; try discriminate; intuition discriminate.
Qed.

(** X3. Text around an utterance never takes the process reply away: if an
    utterance gets it, so does every utterance that contains it. *)
Theorem response_how_survives_context (pre u post : string) :
  response u = replyHow -> response (pre +:+ u +:+ post) = replyHow.
Proof.
  rewrite !response_how_iff, !toLowerCase_app. apply includes_context.
Qed.

Lemma response_how_survives_context_witness :
  response "show" = replyHow /\
  response ("Please " +:+ "show" +:+ " me the price") = replyHow.
Proof.
  split; [reflexivity |].
  exact (response_how_survives_context "Please " "show" " me the price" eq_refl).
Defined.

(** X4. A part of an utterance no rule knows is not known either: if the
    whole gets the generic reply, so does every substring of it. *)
Theorem response_default_substring (pre u post : string) :
  response (pre +:+ u +:+ post) = replyDefault -> response u = replyDefault.
Proof.
  rewrite !response_default_iff, !toLowerCase_app.
  intros (H1 & H2 & H3 & H4 & H5).
  repeat split; eapply includes_context_false; eassumption.
Qed.

Lemma response_default_substring_witness :
  response ("hello " +:+ "there" +:+ " friend") = replyDefault /\
  response "there" = replyDefault.
Proof.
  split; [reflexivity |].
  exact (response_default_substring "hello " "there" " friend" eq_refl).
Defined.

End ResponseMore.

(** ** Invariants of the queue and of the conversation *)

Section QueueInvariants.
Import JsString Chatbot App Page.

Lemma schedule_sorted (t : Timer) (q : list Timer) :
  sortedByDue q -> sortedByDue (schedule t q).
Proof.
  induction q as [|x q IH]; simpl; [intros _; split; [constructor | exact I] |].
  intros [Hx Hq]. destruct (N.leb_spec (due x) (due t)) as [Hle | Hgt]; simpl.
  - split; [| now apply IH].
    apply List.Forall_forall. intros y Hy. apply schedule_In in Hy as [-> | Hy]; [exact Hle |].
    rewrite List.Forall_forall in Hx. now apply Hx.
  - split; [| now split].
    constructor; [lia |].
    eapply List.Forall_impl; [| exact Hx]. simpl. intros; lia.
Qed.

Lemma filter_sorted (P : Timer -> bool) (q : list Timer) :
  sortedByDue q -> sortedByDue (List.filter P q).
Proof.
  induction q as [|x q IH]; simpl; [tauto |].
  intros [Hx Hq]. destruct (P x); simpl; [| now apply IH].
  split; [| now apply IH].
  rewrite List.Forall_forall in *. intros y Hy. apply filter_In in Hy. now apply Hx.
Qed.

(** In a sorted queue the timers due by [t] are a prefix. *)
Lemma sorted_split (t : N) (q : list Timer) :
  sortedByDue q -> List.filter (isDue t) q ++ pendingAfter t q = q.
Proof.
  unfold pendingAfter. induction q as [|x q IH]; simpl; [reflexivity |].
  intros [Hx Hq]. destruct (isDue t x) eqn:E; simpl; [now rewrite IH |].
  assert (Hgt : t < due x).
  { unfold isDue in E. now apply N.leb_gt. }
  assert (Hlate : Forall (fun y => isDue t y = false) q).
  { eapply List.Forall_impl; [| exact Hx]. simpl. intros y Hy.
    unfold isDue. apply N.leb_gt. lia. }
  assert (Hboth : List.filter (isDue t) q = [] /\
                  List.filter (fun y => negb (isDue t y)) q = q).
  { clear IH Hq Hx. induction Hlate as [|y q Hy _ [IH1 IH2]]; [now split |].
    simpl. rewrite Hy. simpl. now rewrite IH1, IH2. }
  destruct Hboth as [-> ->]. reflexivity.
Qed.

Lemma wellTimed_reachable (w : World) : reachable w -> wellTimed w.
Proof.
  revert w. apply reachable_invariant; [split; [exact I | constructor] |].
  unfold wellTimed. intros w e _ [Hs Hb].
  assert (Hsched : forall cb,
    sortedByDue (schedule {| id := nextId w; due := now w + delayOf cb; callback := cb |} (timers w)) /\
    Forall (fun x => now w < due x /\ due x <= now w + delayOf (callback x))
      (schedule {| id := nextId w; due := now w + delayOf cb; callback := cb |} (timers w))).
  { intros cb. split; [now apply schedule_sorted |].
    apply List.Forall_forall. intros x Hx. apply schedule_In in Hx as [-> | Hx].
    - simpl. destruct cb; unfold delayOf, replyDelay, toastDelay; lia.
    - rewrite List.Forall_forall in Hb. now apply Hb. }
  destruct e; try (split; [exact Hs | exact Hb]).
  - simpl. unfold inChat, onSubmit.
    destruct (isBlank (input (chat w))) eqn:E.
    + rewrite (handleSend_blank _ E). now split.
    + rewrite (handleSend_not_blank _ E). simpl.
      exact (Hsched (BotReply (input (chat w)))).
  - simpl. exact (Hsched HideToast).
  - cbn [step]. rewrite elapse_timers, elapse_now. unfold pendingAfter.
    split; [now apply filter_sorted |].
    rewrite List.Forall_forall in *. intros x Hx. apply filter_In in Hx as [Hx Hdue].
    specialize (Hb x Hx). unfold isDue in Hdue.
    destruct (N.leb_spec (due x) (now w + d)); [discriminate | lia].
Qed.

Lemma pendingInputs_app (a b : list Timer) :
  pendingInputs (a ++ b) = pendingInputs a ++ pendingInputs b.
Proof. unfold pendingInputs. apply flat_map_app. Qed.

Lemma pendingInputs_schedule_other (t : Timer) (q : list Timer) :
  isReply t = false -> pendingInputs (schedule t q) = pendingInputs q.
Proof.
  intros Ht. assert (Hn : pendingInputs [t] = []).
  { unfold pendingInputs, isReply in *. simpl. now destruct (callback t). }
  induction q as [|x q IH]; [exact Hn |].
  cbn [schedule]. destruct (due x <=? due t).
  - change (x :: schedule t q) with ([x] ++ schedule t q).
    change (x :: q) with ([x] ++ q). now rewrite !pendingInputs_app, IH.
  - change (t :: x :: q) with ([t] ++ x :: q). now rewrite pendingInputs_app, Hn.
Qed.

(** A reply registered now goes behind every reply already waiting. *)
Lemma pendingInputs_schedule_reply (i t : N) (u : string) (q : list Timer) :
  sortedByDue q ->
  Forall (fun x => due x <= t \/ isReply x = false) q ->
  pendingInputs (schedule {| id := i; due := t; callback := BotReply u |} q) =
  pendingInputs q ++ [u].
Proof.
  induction q as [|x q IH]; [reflexivity |].
  intros [Hx Hs] Hb. apply Forall_cons in Hb as [Hbx Hb].
  cbn [schedule due]. destruct (N.leb_spec (due x) t) as [Hle | Hgt].
  - change (x :: schedule {| id := i; due := t; callback := BotReply u |} q)
      with ([x] ++ schedule {| id := i; due := t; callback := BotReply u |} q).
    change (x :: q) with ([x] ++ q).
    now rewrite !pendingInputs_app, IH, app_assoc.
  - assert (Hnone : pendingInputs (x :: q) = []).
    { assert (Hall : Forall (fun y => isReply y = false) (x :: q)).
      { constructor; [destruct Hbx; [lia | assumption] |].
        rewrite List.Forall_forall in *. intros y Hy.
        destruct (Hb y Hy) as [Hd | Hr]; [| exact Hr]. specialize (Hx y Hy). lia. }
      clear -Hall. induction Hall as [|y l Hy _ IH]; [reflexivity |].
      change (y :: l) with ([y] ++ l). rewrite pendingInputs_app, IH.
      unfold pendingInputs, isReply in *. simpl. now destruct (callback y). }
    rewrite Hnone.
    change ({| id := i; due := t; callback := BotReply u |} :: x :: q)
      with ([{| id := i; due := t; callback := BotReply u |}] ++ x :: q).
    now rewrite pendingInputs_app, Hnone.
Qed.

Lemma answers_replyTurns (q : list Timer) :
  List.map text (List.filter isBotTurn (replyTurns (List.map callback q))) =
  List.map response (pendingInputs q).
Proof.
  induction q as [|x q IH]; [reflexivity |].
  unfold replyTurns, pendingInputs in *. simpl.
  destruct (callback x); simpl; [now rewrite IH | exact IH].
Qed.

Lemma questions_replyTurns (cbs : list Callback) :
  List.filter isUserTurn (replyTurns cbs) = [].
Proof.
  induction cbs as [|cb cbs IH]; [reflexivity |].
  unfold replyTurns in *. simpl. destruct cb; simpl; exact IH.
Qed.

End QueueInvariants.

(** ** The conversation *)

Section ConversationFacts.
Import JsString Chatbot App Page.

Lemma isBlank_false_iff (s : string) :
  isBlank s = false <->
  exists c, In c (list_ascii_of_string s) /\ isWhiteSpace c = false.
Proof.
  induction s as [|c s IH]; simpl.
  - split; [discriminate | intros (c & [] & _)].
  - destruct (isWhiteSpace c) eqn:E; simpl.
    + rewrite IH. split.
      * intros (c' & Hin & Hc'). exists c'. auto.
      * intros (c' & [<- | Hin] & Hc'); [congruence | now exists c'].
    + split; [intros _; exists c; auto | reflexivity].
Qed.

(** X5. Submitting twice in a row is submitting once: the first submission
    empties the field, so the second is ignored, whatever the field
    held. *)
Theorem submit_twice_is_once (w : World) :
  step (step w ChatSubmit) ChatSubmit = step w ChatSubmit.
Proof.
  assert (Hid : forall v, isBlank (input (chat v)) = true -> step v ChatSubmit = v).
  { intros v Hv. simpl. unfold inChat, onSubmit. rewrite (handleSend_blank _ Hv).
    simpl. apply setChat_id. }
  destruct (isBlank (input (chat w))) eqn:E.
  - now rewrite !(Hid w E).
  - apply Hid. simpl. unfold inChat, onSubmit.
    now rewrite (handleSend_not_blank _ E).
Qed.

(** X6. A submission is recorded exactly when the field holds a character
    that is not white space; the turn then holds the field's content as
    it is, untrimmed, the field is emptied, and one timer more is
    pending.  Otherwise the history keeps its length. *)
Theorem submit_recorded_iff_not_blank (w : World) :
  let w' := step w ChatSubmit in
  ((exists c, In c (list_ascii_of_string (input (chat w))) /\ isWhiteSpace c = false) <->
   messages (chat w') = messages (chat w) ++ [{| text := input (chat w); sender := user |}]) /\
  length (messages (chat w')) =
    (length (messages (chat w)) + (if isBlank (input (chat w)) then 0 else 1))%nat /\
  length (timers w') =
    (length (timers w) + (if isBlank (input (chat w)) then 0 else 1))%nat /\
  input (chat w') = (if isBlank (input (chat w)) then input (chat w) else "").
Proof.
  cbv zeta. rewrite <- isBlank_false_iff.
  destruct (isBlank (input (chat w))) eqn:E.
  - assert (Hs : step w ChatSubmit = w).
    { simpl. unfold inChat, onSubmit. rewrite (handleSend_blank _ E). apply setChat_id. }
    rewrite Hs. repeat split; try lia.
    intros H. apply (f_equal length) in H. rewrite length_app in H. simpl in H. lia.
  - simpl. unfold inChat, onSubmit. rewrite (handleSend_not_blank _ E). simpl.
    rewrite length_app, schedule_length. simpl. repeat split; lia.
Qed.

Lemma no_reply_after_delay (w : World) :
  wellTimed w -> pendingInputs (pendingAfter (now w + replyDelay) (timers w)) = [].
Proof.
  intros [_ Hb]. unfold pendingAfter.
  induction Hb as [|x q [_ Hx] _ IH]; [reflexivity |].
  cbn [List.filter]. unfold isDue at 1.
  destruct (N.leb_spec (due x) (now w + replyDelay)); cbn [negb]; [exact IH |].
  change (x :: List.filter (fun y => negb (isDue (now w + replyDelay) y)) q)
    with ([x] ++ List.filter (fun y => negb (isDue (now w + replyDelay) y)) q).
  rewrite pendingInputs_app, IH, app_nil_r.
  destruct x as [i t cb]; destruct cb; simpl in *; [lia | reflexivity].
Qed.

(** X7. The bot answers in the order it was asked: in every reachable world
    the bot's turns so far, followed by the replies to the utterances
    still waiting in the queue, are the greeting followed by the
    selector's reply to each of the user's turns, in order.  So each
    user turn has exactly one reply, given or still to come, and 600 ms
    later every user turn has its reply in the history. *)
Theorem replies_in_order (w : World) :
  reachable w ->
  answers w ++ List.map response (pendingInputs (timers w)) =
    text greeting :: List.map response (questions w) /\
  (botTurns w + length (pendingInputs (timers w)) = S (userTurns w))%nat /\
  answers (step w (Elapse replyDelay)) =
    text greeting :: List.map response (questions (step w (Elapse replyDelay))).
Proof.
  intros Hw.
  assert (Hall : forall v, reachable v ->
            answers v ++ List.map response (pendingInputs (timers v)) =
            text greeting :: List.map response (questions v)).
  { clear w Hw. apply reachable_invariant; [reflexivity |].
    intros w e Hw IH. destruct (wellTimed_reachable w Hw) as [Hs Hb].
    destruct e; try exact IH.
    - cbn [step]. unfold inChat, onSubmit.
      destruct (isBlank (input (chat w))) eqn:E.
      + rewrite (handleSend_blank _ E). exact IH.
      + rewrite (handleSend_not_blank _ E).
        unfold answers, questions in *. simpl.
        rewrite !List.filter_app. simpl. rewrite app_nil_r, List.map_app.
        rewrite pendingInputs_schedule_reply.
        * rewrite !List.map_app, app_assoc, IH. reflexivity.
        * exact Hs.
        * eapply List.Forall_impl; [| exact Hb]. simpl. intros x [_ Hx].
          destruct x as [i t cb]; destruct cb; simpl in *; [left; exact Hx | right; reflexivity].
    - unfold answers, questions in *. simpl.
      rewrite pendingInputs_schedule_other by reflexivity. exact IH.
    - unfold answers, questions in *. cbn [step].
      rewrite elapse_messages, elapse_timers, !List.filter_app, !List.map_app.
      unfold firedBy. rewrite answers_replyTurns, questions_replyTurns, app_nil_r.
      rewrite <- app_assoc, <- List.map_app, <- pendingInputs_app, sorted_split by exact Hs.
      exact IH. }
  pose proof (Hall w Hw) as Hord.
  split; [exact Hord |]. split.
  - apply (f_equal length) in Hord.
    unfold answers, questions in Hord.
    rewrite length_app, !length_map in Hord. simpl in Hord.
    rewrite !length_map in Hord. exact Hord.
  - pose proof (Hall _ (reachable_step w (Elapse replyDelay) Hw)) as Hlater.
    cbn [step] in Hlater. rewrite elapse_timers in Hlater.
    rewrite (no_reply_after_delay w (wellTimed_reachable w Hw)) in Hlater.
    simpl in Hlater. rewrite app_nil_r in Hlater. exact Hlater.
Qed.

Lemma replies_in_order_witness :
  let w := run [ChatChange "how"; ChatSubmit; ChatChange "is it safe"; ChatSubmit;
                Elapse 600] Page.init in
  reachable w /\
  answers w ++ List.map response (pendingInputs (timers w)) =
    text greeting :: List.map response (questions w).
Proof.
  assert (H : reachable (run [ChatChange "how"; ChatSubmit; ChatChange "is it safe";
                              ChatSubmit; Elapse 600] Page.init)).
  { now eexists. }
  split; [exact H | exact (proj1 (replies_in_order _ H))].
Defined.

(** X8. No reply is later than its delay: 600 ms after any reachable moment
    every reply asked for before has been given, 3000 ms after it the
    queue is empty, and a pending timer is always due strictly in the
    future. *)
Theorem pending_bounded (w : World) :
  reachable w ->
  pendingInputs (timers (step w (Elapse replyDelay))) = [] /\
  timers (step w (Elapse toastDelay)) = [] /\
  Forall (fun x => now w < due x) (timers w).
Proof.
  intros Hw. destruct (wellTimed_reachable w Hw) as [_ Hb].
  cbn [step]. rewrite !elapse_timers. unfold pendingAfter.
  split; [| split].
  - apply no_reply_after_delay, wellTimed_reachable, Hw.
  - induction Hb as [|x q [_ Hx] _ IH]; [reflexivity |].
    simpl. unfold isDue at 1.
    destruct (N.leb_spec (due x) (now w + toastDelay)); simpl; [exact IH |].
    destruct x as [i t cb]; destruct cb; simpl in *; unfold replyDelay, toastDelay in *; lia.
  - eapply List.Forall_impl; [| exact Hb]. simpl. tauto.
Qed.

Lemma pending_bounded_witness :
  let w := run [ChatChange "price?"; ChatSubmit; FormSubmit; Elapse 100] Page.init in
  reachable w /\ timers (step w (Elapse toastDelay)) = [].
Proof.
  assert (H : reachable (run [ChatChange "price?"; ChatSubmit; FormSubmit; Elapse 100] Page.init)).
  { now eexists. }
  split; [exact H | exact (proj1 (proj2 (pending_bounded _ H)))].
Defined.

End ConversationFacts.

(** ** The two components side by side *)

Section ComponentFacts.
Import JsString Chatbot App Page.

Lemma step_app_chat (w : World) (e : Event) :
  match e with
  | ChatClick | ChatChange _ | ChatSubmit => app (step w e) = app w
  | ThemeClick | FormChange _ _ | FormSubmit | ToastClose => chat (step w e) = chat w
  | Elapse _ => True
  end.
Proof.
  destruct e; try reflexivity; try exact I.
  simpl. unfold inChat. destruct (onSubmit (chat w)) as [c effects].
  now destruct (performAll_frame effects (setChat c w)) as (_ & -> & _).
Qed.

(** X10. The chatbot and the page do not touch each other: an event of the
    chat widget leaves theme, toast and contact form as they are, an
    event of the page leaves the chatbot as it is, and the passing of
    time changes neither the theme, the form, the chat field nor whether
    the chat window is open. *)
Theorem components_isolated (w : World) (e : Event) :
  match e with
  | ChatClick | ChatChange _ | ChatSubmit => app (step w e) = app w
  | ThemeClick | FormChange _ _ | FormSubmit | ToastClose => chat (step w e) = chat w
  | Elapse _ =>
      theme (app (step w e)) = theme (app w) /\
      formData (app (step w e)) = formData (app w) /\
      input (chat (step w e)) = input (chat w) /\
      isOpen (chat (step w e)) = isOpen (chat w)
  end.
Proof.
  pose proof (step_app_chat w e) as H.
  destruct e; try exact H.
  cbn [step]. destruct (elapse_frame d w) as (-> & -> & -> & ->). auto.
Qed.

(** X11. The greeting stays the first turn of the history, so the history is
    never empty. *)
Theorem greeting_first (w : World) :
  reachable w -> exists rest, messages (chat w) = greeting :: rest.
Proof.
  revert w. apply reachable_invariant; [now exists [] |].
  intros w e _ [rest IH]. destruct (step_messages w e) as [new ->].
  rewrite IH. now exists (rest ++ new).
Qed.

Lemma greeting_first_witness :
  let w := run [ChatChange "cost"; ChatSubmit; Elapse 700] Page.init in
  reachable w /\ exists rest, messages (chat w) = greeting :: rest.
Proof.
  assert (H : reachable (run [ChatChange "cost"; ChatSubmit; Elapse 700] Page.init)).
  { now eexists. }
  split; [exact H | exact (greeting_first _ H)].
Defined.

(** X12. The chat window is open exactly when its button has been clicked an
    odd number of times, and the theme is 'dark' exactly when the theme
    button has: nothing else opens, closes or recolours. *)
Theorem toggles_by_parity (es : list Event) :
  isOpen (chat (run es Page.init)) = Nat.odd (count isChatClick es) /\
  theme (app (run es Page.init)) =
    (if Nat.odd (count isThemeClick es) then "dark" else "light").
Proof.
  unfold count.
  induction es as [|e es [IHo IHt]] using rev_ind; [now split |].
  rewrite run_snoc, !List.filter_app, !length_app. split.
  - destruct e; try (simpl; rewrite Nat.add_0_r; exact IHo).
    + simpl. rewrite IHo, Nat.add_1_r, Nat.odd_succ, <- Nat.negb_odd. reflexivity.
    + simpl. rewrite Nat.add_0_r. unfold inChat.
      destruct (onSubmit (chat (run es Page.init))) as [c effects] eqn:E.
      destruct (performAll_frame effects (setChat c (run es Page.init))) as (-> & _).
      unfold onSubmit, handleSend in E. simpl.
      destruct (negb _) in E; injection E; intros _ <-; exact IHo.
    + cbn [step]. destruct (elapse_frame d (run es Page.init)) as (_ & _ & -> & _).
      simpl. rewrite Nat.add_0_r. exact IHo.
  - rewrite step_theme.
    destruct e; try (simpl; rewrite Nat.add_0_r; exact IHt).
    simpl. rewrite IHt, Nat.add_1_r, Nat.odd_succ, <- Nat.negb_odd.
    destruct (Nat.odd (length (List.filter isThemeClick es))); reflexivity.
Qed.

End ComponentFacts.

(** ** The contact form and its toast *)

Section FormFacts.
Import JsString Chatbot App Page.

Lemma step_formData (w : World) (e : Event) :
  formData (app (step w e)) =
  match e with
  | FormChange name value => <[name := value]> (formData (app w))
  | FormSubmit => emptyForm
  | _ => formData (app w)
  end.
Proof.
  destruct e; try reflexivity.
  - pose proof (step_app_chat w ChatSubmit) as H. simpl in H. simpl. now rewrite H.
  - apply elapse_frame.
Qed.

(** X13. What editing a control does: the edited field reads the new value,
    every other field, the theme and the toast are as before, the last
    of two edits of a field wins, and edits of two different fields can
    be made in either order. *)
Theorem field_update (st : App.State) (n m v v' : string) :
  n <> m ->
  field n (handleInputChange n v st) = Some v /\
  field m (handleInputChange n v st) = field m st /\
  theme (handleInputChange n v st) = theme st /\
  showToast (handleInputChange n v st) = showToast st /\
  handleInputChange n v' (handleInputChange n v st) = handleInputChange n v' st /\
  handleInputChange n v (handleInputChange m v' st) =
    handleInputChange m v' (handleInputChange n v st).
Proof.
  intros Hnm. unfold field, handleInputChange, setFormData. simpl.
  rewrite lookup_insert_eq, lookup_insert_ne by exact Hnm.
  rewrite insert_insert_eq.
  rewrite (insert_insert_ne (formData st) n m) by exact Hnm.
  repeat split; reflexivity.
Qed.

Lemma field_update_witness :
  "email" <> "name" /\
  field "email" (handleInputChange "email" "a@b.c" App.init) = Some "a@b.c" /\
  field "name" (handleInputChange "email" "a@b.c" App.init) = field "name" App.init.
Proof.
  assert (H : "email" <> "name") by discriminate.
  split; [exact H |].
  pose proof (field_update App.init "email" "name" "a@b.c" "" H) as (H1 & H2 & _).
  split; [exact H1 | exact H2].
Defined.

(** X14. A control of the form always has a value: after events that
    only name the five controls of the form, each of the five fields is
    defined and the form has no other key. *)
Theorem form_fields_defined (es : list Event) :
  knownFields es ->
  let w := run es Page.init in
  Forall (fun name => is_Some (field name (app w))) fieldNames /\
  dom (formData (app w)) = dom emptyForm.
Proof.
  intros Hes. cbv zeta.
  assert (Hdom : dom (formData (app (run es Page.init))) = dom emptyForm).
  { induction es as [|e es IH] using rev_ind; [reflexivity |].
    apply Forall_app in Hes as [Hes He]. apply Forall_cons in He as [He _].
    rewrite run_snoc, step_formData. specialize (IH Hes).
    destruct e; try exact IH; [| reflexivity].
    rewrite dom_insert_L, IH. unfold emptyForm. rewrite !dom_insert_L, dom_empty_L.
    unfold fieldNames in He. simpl in He.
    destruct He as [<- | [<- | [<- | [<- | [<- | []]]]]]; set_solver. }
  split; [| exact Hdom].
  apply List.Forall_forall. intros name Hname. unfold field.
  apply elem_of_dom. rewrite Hdom. unfold emptyForm.
  rewrite !dom_insert_L, dom_empty_L.
  unfold fieldNames in Hname. simpl in Hname.
  destruct Hname as [<- | [<- | [<- | [<- | [<- | []]]]]]; set_solver.
Qed.

Lemma form_fields_defined_witness :
  let es := [FormChange "name" "Ada"; ThemeClick; FormChange "message" "hello"] in
  knownFields es /\
  dom (formData (app (run es Page.init))) = dom emptyForm.
Proof.
  assert (H : knownFields [FormChange "name" "Ada"; ThemeClick; FormChange "message" "hello"]).
  { unfold knownFields, fieldNames. repeat constructor; simpl; tauto. }
  split; [exact H | exact (proj2 (form_fields_defined _ H))].
Defined.

Lemma toast_has_timer (w : World) :
  reachable w -> showToast (app w) = true ->
  exists x, In x (timers w) /\ callback x = HideToast.
Proof.
  revert w.
  apply (reachable_invariant (fun w => showToast (app w) = true ->
           exists x, In x (timers w) /\ callback x = HideToast)); [discriminate |].
  intros w e _ IH. destruct e; try exact IH.
  - pose proof (step_app_chat w ChatSubmit) as Ha. cbn beta iota in Ha. rewrite Ha.
    intros Hshow. destruct (IH Hshow) as (x & Hx & Hcb). exists x. split; [| exact Hcb].
    simpl. unfold inChat, onSubmit.
    destruct (isBlank (input (chat w))) eqn:E.
    + now rewrite (handleSend_blank _ E).
    + rewrite (handleSend_not_blank _ E). simpl. apply schedule_In. now right.
  - intros _. eexists. split; [simpl; apply schedule_In; left; reflexivity | reflexivity].
  - discriminate.
  - cbn [step]. rewrite elapse_showToast, elapse_timers.
    destruct (existsb _ _) eqn:E; [discriminate |].
    intros Hshow. destruct (IH Hshow) as (x & Hx & Hcb). exists x. split; [| exact Hcb].
    unfold pendingAfter. apply filter_In. split; [exact Hx |].
    destruct (isDue (now w + d) x) eqn:Edue; [| reflexivity].
    exfalso. rewrite <- not_true_iff_false in E. apply E.
    apply existsb_exists. exists HideToast. split; [| reflexivity].
    rewrite <- Hcb. unfold firedBy. apply in_map, filter_In. now split.
Qed.

(** X15. The toast is never shown for longer than its delay: 3000 ms after any
    reachable moment it is hidden. *)
Theorem toast_hidden_within_delay (w : World) :
  reachable w -> showToast (app (step w (Elapse toastDelay))) = false.
Proof.
  intros Hw. cbn [step]. rewrite elapse_showToast.
  destruct (existsb _ _) eqn:E; [reflexivity |].
  destruct (showToast (app w)) eqn:Hshow; [| reflexivity].
  destruct (toast_has_timer w Hw Hshow) as (x & Hx & Hcb).
  exfalso. rewrite <- not_true_iff_false in E. apply E.
  apply existsb_exists. exists HideToast. split; [| reflexivity].
  rewrite <- Hcb. apply firedBy_In; [exact Hx |].
  destruct (wellTimed_reachable w Hw) as [_ Hb].
  rewrite List.Forall_forall in Hb. destruct (Hb x Hx) as [_ Hdue].
  rewrite Hcb in Hdue. exact Hdue.
Qed.

Lemma toast_hidden_within_delay_witness :
  let w := run [FormSubmit; Elapse 1000; FormSubmit] Page.init in
  reachable w /\ showToast (app (step w (Elapse toastDelay))) = false.
Proof.
  assert (H : reachable (run [FormSubmit; Elapse 1000; FormSubmit] Page.init)).
  { now eexists. }
  split; [exact H | exact (toast_hidden_within_delay _ H)].
Defined.

End FormFacts.

(** ** Time in steps *)

Section ElapseFacts.
Import JsString Chatbot App Page.

Lemma runCallbacks_commute (cbs : list Callback) (t : N) (q : list Timer) (w : World) :
  fold_left runCallback cbs (setNow t (setTimers q w)) =
  setNow t (setTimers q (fold_left runCallback cbs w)).
Proof.
  revert w; induction cbs as [|cb cbs IH]; intros w; [reflexivity |].
  cbn [fold_left]. rewrite <- IH. f_equal. now destruct cb.
Qed.

Lemma pendingAfter_twice (t1 t2 : N) (q : list Timer) :
  t1 <= t2 -> pendingAfter t2 (pendingAfter t1 q) = pendingAfter t2 q.
Proof.
  intros Hle. unfold pendingAfter. induction q as [|x q IH]; [reflexivity |].
  simpl. destruct (isDue t1 x) eqn:E1; simpl.
  - assert (E2 : isDue t2 x = true).
    { unfold isDue in *. apply N.leb_le. apply N.leb_le in E1. lia. }
    now rewrite E2.
  - now rewrite IH.
Qed.

Lemma firedBy_split (t1 t2 : N) (q : list Timer) :
  t1 <= t2 -> sortedByDue q ->
  firedBy t2 q = firedBy t1 q ++ firedBy t2 (pendingAfter t1 q).
Proof.
  intros Hle Hs. unfold firedBy. rewrite <- List.map_app. f_equal.
  rewrite <- (sorted_split t1 q Hs) at 1. rewrite List.filter_app. f_equal.
  induction q as [|x q IH]; [reflexivity |].
  destruct Hs as [_ Hs]. simpl. destruct (isDue t1 x) eqn:E1; simpl; [| now apply IH].
  assert (E2 : isDue t2 x = true).
  { unfold isDue in *. apply N.leb_le. apply N.leb_le in E1. lia. }
  rewrite E2. f_equal. now apply IH.
Qed.

(** X9. Waiting in two steps is waiting once: from a reachable world, letting
    [a] and then [b] milliseconds pass leaves the page in the very world
    that letting [a + b] milliseconds pass does; the timers fire in the
    same order. *)
Theorem elapse_in_steps (w : World) (a b : N) :
  reachable w ->
  step (step w (Elapse a)) (Elapse b) = step w (Elapse (a + b)).
Proof.
  intros Hw. destruct (wellTimed_reachable w Hw) as [Hs _]. cbn [step].
  assert (Ha : elapse a w =
    setNow (now w + a) (setTimers (pendingAfter (now w + a) (timers w))
      (fold_left runCallback (firedBy (now w + a) (timers w)) w))).
  { unfold elapse; cbv zeta. apply runCallbacks_commute. }
  unfold elapse at 1; cbv zeta. rewrite elapse_now, elapse_timers, Ha.
  rewrite !runCallbacks_commute, <- fold_left_app.
  rewrite <- (firedBy_split (now w + a) (now w + a + b) (timers w)) by (lia || exact Hs).
  rewrite pendingAfter_twice by lia.
  unfold elapse; cbv zeta. rewrite runCallbacks_commute, N.add_assoc. reflexivity.
Qed.

Lemma elapse_in_steps_witness :
  let w := run [ChatChange "how"; ChatSubmit; FormSubmit] Page.init in
  reachable w /\ step (step w (Elapse 600)) (Elapse 2400) = step w (Elapse 3000).
Proof.
  assert (H : reachable (run [ChatChange "how"; ChatSubmit; FormSubmit] Page.init)).
  { now eexists. }
  split; [exact H | exact (elapse_in_steps _ 600 2400 H)].
Defined.

(** X16. A second submission of the contact form before the first toast has
    gone loses part of its own: [d1] milliseconds after the first
    submission the form is submitted again and the toast is shown, but
    the timeout of the first submission hides it 3000 ms after the first
    submission, while the timeout of the second is still pending. *)
Theorem toast_cut_short (w : World) (d1 : N) :
  0 < d1 -> d1 < toastDelay ->
  let w2 := run [FormSubmit; Elapse d1; FormSubmit] w in
  let w3 := step w2 (Elapse (toastDelay - d1)) in
  showToast (app w2) = true /\
  showToast (app w3) = false /\
  now w3 = now w + toastDelay /\
  In {| id := nextId w + 1; due := now w + d1 + toastDelay; callback := HideToast |}
     (timers w3).
Proof.
  intros Hpos Hlt. cbv zeta.
  set (tm1 := {| id := nextId w; due := now w + toastDelay; callback := HideToast |}).
  set (tm2 := {| id := nextId w + 1; due := now w + d1 + toastDelay; callback := HideToast |}).
  set (w1 := step w FormSubmit).
  set (wa := step w1 (Elapse d1)).
  change (run [FormSubmit; Elapse d1; FormSubmit] w) with (step wa FormSubmit).
  assert (Hnow : now wa = now w + d1) by (unfold wa; cbn [step]; now rewrite elapse_now).
  assert (Hid : nextId wa = nextId w + 1) by (unfold wa; cbn [step]; now rewrite elapse_nextId).
  assert (H1 : In tm1 (timers wa)).
  { unfold wa. cbn [step]. rewrite elapse_timers. unfold pendingAfter.
    apply filter_In. split; [simpl; apply schedule_In; now left |].
    unfold isDue. simpl. apply negb_true_iff, N.leb_gt. lia. }
  assert (Ht2 : timers (step wa FormSubmit) = schedule tm2 (timers wa)).
  { simpl. now rewrite Hid, Hnow. }
  assert (Hn2 : now (step wa FormSubmit) = now w + d1) by exact Hnow.
  split; [reflexivity |].
  generalize dependent (step wa FormSubmit). intros w2 Ht2 Hn2.
  cbn [step]. rewrite elapse_showToast, elapse_now, elapse_timers, Hn2, Ht2.
  replace (now w + d1 + (toastDelay - d1)) with (now w + toastDelay) by lia.
  split; [| split; [reflexivity |]].
  - assert (Hin : In HideToast (firedBy (now w + toastDelay) (schedule tm2 (timers wa)))).
    { apply (firedBy_In _ tm1); [apply schedule_In; now right | simpl; lia]. }
    destruct (existsb _ _) eqn:E; [reflexivity |].
    exfalso. rewrite <- not_true_iff_false in E. apply E.
    apply existsb_exists. now exists HideToast.
  - unfold pendingAfter. apply filter_In. split; [apply schedule_In; now left |].
    unfold isDue. simpl. apply negb_true_iff, N.leb_gt. lia.
Qed.

Lemma toast_cut_short_witness :
  0 < 1000 /\ 1000 < App.toastDelay /\
  showToast (app (step (run [FormSubmit; Elapse 1000; FormSubmit] Page.init)
                       (Elapse (App.toastDelay - 1000)))) = false.
Proof.
  assert (H0 : 0 < 1000) by reflexivity.
  assert (H1 : 1000 < App.toastDelay) by reflexivity.
  split; [exact H0 |]. split; [exact H1 |].
  exact (proj1 (proj2 (toast_cut_short Page.init 1000 H0 H1))).
Defined.

End ElapseFacts.

(** ** A question and its answer, a submission and its toast *)

Section EndToEnd.
Import JsString Chatbot App Page.

Lemma replyTurns_pendingInputs (q : list Timer) :
  replyTurns (List.map callback q) =
  List.map (fun u => {| text := response u; sender := bot |}) (pendingInputs q).
Proof.
  induction q as [|x q IH]; [reflexivity |].
  unfold replyTurns, pendingInputs in *. simpl.
  destruct (callback x); simpl; [now rewrite IH | exact IH].
Qed.

(** X17. Asking on a quiet page: when no reply is pending, typing an
    utterance that is not blank, submitting it and waiting 600 ms adds
    to the history exactly the user's turn with the utterance followed
    by the bot's turn with the selector's reply to it, and leaves the
    field empty. *)
Theorem ask_and_answer (w : World) (v : string) :
  reachable w ->
  pendingInputs (timers w) = [] ->
  isBlank v = false ->
  let w' := run [ChatChange v; ChatSubmit; Elapse replyDelay] w in
  messages (chat w') =
    messages (chat w) ++
    [{| text := v; sender := user |}; {| text := response v; sender := bot |}] /\
  input (chat w') = "" /\
  pendingInputs (timers w') = [].
Proof.
  intros Hw Hquiet Hv. cbv zeta.
  change (run [ChatChange v; ChatSubmit; Elapse replyDelay] w)
    with (step (step (step w (ChatChange v)) ChatSubmit) (Elapse replyDelay)).
  set (w0 := step w (ChatChange v)).
  assert (Hw0 : reachable w0) by now apply reachable_step.
  assert (Hin0 : input (chat w0) = v) by reflexivity.
  assert (Hq0 : timers w0 = timers w) by reflexivity.
  assert (Hm0 : messages (chat w0) = messages (chat w)) by reflexivity.
  clearbody w0.
  set (w1 := step w0 ChatSubmit).
  assert (Hw1 : reachable w1) by now apply reachable_step.
  destruct (wellTimed_reachable w0 Hw0) as [Hs0 Hb0].
  assert (Hstep : w1 =
    setNextId (nextId w0 + 1)
      (setTimers (schedule {| id := nextId w0; due := now w0 + replyDelay;
                              callback := BotReply v |} (timers w0))
         (setChat (setInput "" (appendTurn {| text := v; sender := user |} (chat w0))) w0))).
  { unfold w1. simpl. unfold inChat, onSubmit.
    rewrite handleSend_not_blank by (rewrite Hin0; exact Hv). now rewrite Hin0. }
  assert (Hp1 : pendingInputs (timers w1) = [v]).
  { rewrite Hstep. simpl. rewrite pendingInputs_schedule_reply.
    - now rewrite Hq0, Hquiet.
    - exact Hs0.
    - eapply List.Forall_impl; [| exact Hb0]. simpl. intros x [_ Hx].
      destruct x as [i t cb]; destruct cb; simpl in *; [left; exact Hx | right; reflexivity]. }
  assert (Hm1 : messages (chat w1) = messages (chat w) ++ [{| text := v; sender := user |}]).
  { rewrite Hstep. simpl. now rewrite Hm0. }
  assert (Hi1 : input (chat w1) = "") by now rewrite Hstep.
  destruct (wellTimed_reachable w1 Hw1) as [Hs1 _].
  pose proof (no_reply_after_delay w1 (wellTimed_reachable w1 Hw1)) as Hnone.
  assert (Hfired : pendingInputs (List.filter (isDue (now w1 + replyDelay)) (timers w1)) = [v]).
  { rewrite <- (sorted_split (now w1 + replyDelay) (timers w1) Hs1) in Hp1.
    rewrite pendingInputs_app, Hnone, app_nil_r in Hp1. exact Hp1. }
  clearbody w1. cbn [step].
  rewrite elapse_messages, elapse_timers. unfold firedBy.
  rewrite replyTurns_pendingInputs, Hfired, Hm1, Hnone, <- app_assoc.
  destruct (elapse_frame replyDelay w1) as (_ & _ & _ & ->).
  now rewrite Hi1.
Qed.

Lemma ask_and_answer_witness :
  let w := run [ThemeClick; FormSubmit] Page.init in
  reachable w /\ pendingInputs (timers w) = [] /\ isBlank "Is it secure?" = false /\
  input (chat (run [ChatChange "Is it secure?"; ChatSubmit; Elapse replyDelay] w)) = "".
Proof.
  assert (H : reachable (run [ThemeClick; FormSubmit] Page.init)) by now eexists.
  split; [exact H |]. split; [reflexivity |]. split; [reflexivity |].
  exact (proj1 (proj2 (ask_and_answer _ "Is it secure?" H eq_refl eq_refl))).
Defined.

(** X18. The toast of a submission stays for its whole delay when
    nothing else hides it: if no hiding timeout is pending at the
    submission, the toast is still shown after any wait shorter than
    3000 ms. *)
Theorem toast_stays_for_delay (w : World) (d : N) :
  Forall (fun x => callback x <> HideToast) (timers w) ->
  d < toastDelay ->
  showToast (app (step (step w FormSubmit) (Elapse d))) = true.
Proof.
  intros Hnone Hd. cbn [step]. rewrite elapse_showToast.
  destruct (existsb _ _) eqn:E; [| reflexivity].
  exfalso. apply existsb_exists in E as (cb & Hcb & Hhide).
  destruct cb; [discriminate |].
  unfold firedBy in Hcb. apply in_map_iff in Hcb as (x & Hx & Hin).
  apply filter_In in Hin as [Hin Hdue]. simpl in Hin, Hdue.
  apply schedule_In in Hin as [-> | Hin].
  - unfold isDue in Hdue. simpl in Hdue. apply N.leb_le in Hdue. lia.
  - rewrite List.Forall_forall in Hnone. exact (Hnone x Hin Hx).
Qed.

Lemma toast_stays_for_delay_witness :
  Forall (fun x => callback x <> HideToast) (timers Page.init) /\ 2999 < toastDelay /\
  showToast (app (step (step Page.init FormSubmit) (Elapse 2999))) = true.
Proof.
  assert (H : Forall (fun x => callback x <> HideToast) (timers Page.init)) by constructor.
  assert (Hd : 2999 < toastDelay) by reflexivity.
  split; [exact H |]. split; [exact Hd |].
  exact (toast_stays_for_delay Page.init 2999 H Hd).
Defined.

End EndToEnd.
